(** * when.js 3.0.0: the combinator layer (when.js) and the lifting layer
    (function.js), as a shallow embedding.

    JavaScript values are an inductive type, user-supplied functions are
    interpreted by an environment, and every call of a user function is
    recorded in a call log, so that "invoked exactly once" and "never
    invoked" are statements about that log.  Code that can throw lives in a
    small state-and-exception monad [M]. *)

From Stdlib Require Import ZArith String Bool Arith Lia List.
Import ListNotations.

Local Open Scope string_scope.
Local Open Scope list_scope.
Local Open Scope nat_scope.

(** ** Values *)

Definition fid := nat.

(** A future is known by its eventual outcome: it stays pending for ever, or
    settles once, in turn [t], as fulfilled or rejected. *)
#[local] Unset Elimination Schemes.
Inductive value : Type :=
| VUndefined
| VNull
| VBool (b : bool)
| VNum (n : Z)
| VNaN
| VStr (s : string)
| VFun (f : fid)
| VBuiltin (name : string)
| VArr (elems : list value)
| VObj (props : list (string * value))
| VFuture (o : outcome)
with outcome : Type :=
| Pending
| Fulfilled (t : nat) (v : value)
| Rejected (t : nat) (r : value).
#[local] Set Elimination Schemes.

(** Result of evaluating a piece of JavaScript: a value, or a thrown value. *)
Inductive completion (A : Type) : Type :=
| Normal (a : A)
| Throw (e : value).
Arguments Normal {A} a.
Arguments Throw {A} e.

Definition TypeError : value := VObj [("name", VStr "TypeError")].

(** ToBoolean *)
Definition truthy (x : value) : bool :=
  match x with
  | VUndefined | VNull | VNaN => false
  | VBool b => b
  | VNum n => negb (n =? 0)%Z
  | VStr s => negb (String.eqb s "")
  | _ => true
  end.

(** The typeof operator *)
Definition typeof (x : value) : string :=
  match x with
  | VUndefined => "undefined"
  | VBool _ => "boolean"
  | VNum _ | VNaN => "number"
  | VStr _ => "string"
  | VFun _ | VBuiltin _ => "function"
  | VNull | VArr _ | VObj _ | VFuture _ => "object"
  end.

Fixpoint lookup (name : string) (props : list (string * value)) : value :=
  match props with
  | [] => VUndefined
  | (k, v) :: rest => if String.eqb k name then v else lookup name rest
  end.

(** Property read [x.name].  It throws on null and undefined; primitives and
    plain functions carry no [then]; a future of the primitive exposes its
    [then] method. *)
Definition get (x : value) (name : string) : completion value :=
  match x with
  | VUndefined | VNull => Throw TypeError
  | VObj props => Normal (lookup name props)
  | VFuture _ => Normal (if String.eqb name "then" then VBuiltin "then" else VUndefined)
  | _ => Normal VUndefined
  end.

Definition is_array (x : value) : bool :=
  match x with VArr _ => true | _ => false end.

(** Array.prototype.concat with one argument: an array argument is spread,
    anything else is appended as one element. *)
Definition concat (a : list value) (x : value) : list value :=
  match x with
  | VArr l => a ++ l
  | _ => a ++ [x]
  end.

(** ** Calls of user functions *)

Record call : Type := mkCall {
  callee : fid;
  this_arg : value;
  call_args : list value
}.

Definition log := list call.

(** A computation reads and extends the call log and ends normally or by a
    throw. *)
Definition M (A : Type) : Type := log -> completion A * log.

Definition ret {A} (a : A) : M A := fun lg => (Normal a, lg).
Definition throw {A} (e : value) : M A := fun lg => (Throw e, lg).
Definition bind {A B} (m : M A) (k : A -> M B) : M B :=
  fun lg =>
    match m lg with
    | (Normal a, lg') => k a lg'
    | (Throw e, lg') => (Throw e, lg')
    end.

Notation "x <- m ;; k" := (bind m (fun x => k))
  (at level 61, m at next level, right associativity).

(** User-supplied functions are interpreted by an environment: what the
    function with a given identifier does when called with a [this] value and
    an argument list. *)
Class Env : Type :=
  fenv : fid -> value -> list value -> completion value.

(** A call [callee.apply(this, args)]: a user function runs and the call is
    logged; anything else is a TypeError (the host's own functions are not
    interpreted). *)
Definition call_value `{Env} (callee this : value) (args : list value) : M value :=
  match callee with
  | VFun f => fun lg => (fenv f this args, lg ++ [mkCall f this args])
  | _ => throw TypeError
  end.

(** Function.prototype.apply with its argument array *)
Definition func_apply `{Env} (func this argArray : value) : M value :=
  match argArray with
  | VArr vs => call_value func this vs
  | VUndefined | VNull => call_value func this []
  | _ => throw TypeError
  end.

(** A loop that threads an accumulator, and one that collects results. *)
Fixpoint foldM {A B} (f : A -> B -> M A) (l : list B) (a : A) : M A :=
  match l with
  | [] => ret a
  | b :: l' => a' <- f a b ;; foldM f l' a'
  end.

Fixpoint mapM {A B} (f : A -> M B) (l : list A) : M (list B) :=
  match l with
  | [] => ret []
  | a :: l' => b <- f a ;; bs <- mapM f l' ;; ret (b :: bs)
  end.

(** ** The future primitive *)

Module Promise.

(** lib/Promise.js and the features layered on it (lib/array.js and the
    others) are required by when.js but are not among the sources: all of
    this module is modelled from the spec.  The spec treats the primitive as
    a black box with [resolve], [reject], a constructor and [then], whose
    futures settle at most once, eventually and asynchronously; a future is
    therefore modelled by its outcome and the turn in which it settles, and
    an observer runs one turn after the settlement it observes.  Progress
    notification is not modelled. *)

(** Modelled from the spec: [Promise.resolve(x)] (lib/Promise.js, absent).  A
    future is returned as it is, a bare value is a future fulfilled from the
    start. *)
Definition resolve (x : value) : outcome :=
  match x with
  | VFuture o => o
  | _ => Fulfilled 0 x
  end.

(** Modelled from the spec: [Promise.reject(r)] (lib/Promise.js, absent). *)
Definition reject (r : value) : outcome := Rejected 0 r.

(** Modelled from the spec: following a future (the unwrapping done by the
    absent primitive).  The derived future settles as [o] does, but not
    before turn [t]. *)
Definition delay (t : nat) (o : outcome) : outcome :=
  match o with
  | Pending => Pending
  | Fulfilled t' v => Fulfilled (Nat.max t t') v
  | Rejected t' r => Rejected (Nat.max t t') r
  end.

(** Modelled from the spec: settling a future in turn [t] with what a
    handler returned (absent primitive): a returned future is followed, a
    bare value fulfils. *)
Definition adopt (t : nat) (x : value) : outcome := delay t (resolve x).

(** Modelled from the spec: an optional observer passed to [then]. *)
Definition handler : Type := option (value -> M value).

(** Modelled from the spec: how a handler that ran in turn [t] settles the
    derived future (absent primitive): with what it returned, or, as a
    rejection, with what it threw. *)
Definition conclude (t : nat) (c : completion value) : outcome :=
  match c with
  | Normal x => adopt t x
  | Throw e => Rejected t e
  end.

(** Modelled from the spec: a handler runs in turn [t], and what it throws is
    caught (absent primitive). *)
Definition run_handler (t : nat) (k : value -> M value) (v : value) : M outcome :=
  fun lg => let (c, lg') := k v lg in (Normal (conclude t c), lg').

(** Modelled from the spec: [p.then(onFulfilled, onRejected)]
    (lib/Promise.js, absent).  The handler for the way [p] settles runs one
    turn later and settles the derived future; a missing handler passes the
    settlement of [p] on, as the doc comment of [when] says. *)
Definition then_ (p : outcome) (onFulfilled onRejected : handler) : M outcome :=
  match p with
  | Pending => ret Pending
  | Fulfilled t v =>
      match onFulfilled with
      | Some k => run_handler (S t) k v
      | None => ret (Fulfilled (S t) v)
      end
  | Rejected t r =>
      match onRejected with
      | Some k => run_handler (S t) k r
      | None => ret (Rejected (S t) r)
      end
  end.

(** Modelled from the spec: the element-wise combinators (absent) are
    defined on sequences; handing them anything else is taken to be a
    TypeError of the host. *)
Definition elements (x : value) : M (list value) :=
  match x with
  | VArr l => ret l
  | _ => throw TypeError
  end.

(** Modelled from the spec: the earliest rejection among the inputs (first
    rejection wins), the lower index winning a tie. *)
Fixpoint first_rejection (os : list outcome) : option (nat * value) :=
  match os with
  | [] => None
  | Rejected t r :: rest =>
      match first_rejection rest with
      | Some (t', r') => if t <=? t' then Some (t, r) else Some (t', r')
      | None => Some (t, r)
      end
  | _ :: rest => first_rejection rest
  end.

(** Modelled from the spec: the earliest fulfilment among the inputs, the
    lower index winning a tie. *)
Fixpoint first_fulfilment (os : list outcome) : option (nat * value) :=
  match os with
  | [] => None
  | Fulfilled t v :: rest =>
      match first_fulfilment rest with
      | Some (t', v') => if t <=? t' then Some (t, v) else Some (t', v')
      | None => Some (t, v)
      end
  | _ :: rest => first_fulfilment rest
  end.

(** Modelled from the spec: the fulfilment values, index-aligned, when every
    input fulfils. *)
Fixpoint fulfilled_values (os : list outcome) : option (list value) :=
  match os with
  | [] => Some []
  | Fulfilled _ v :: rest =>
      match fulfilled_values rest with
      | Some vs => Some (v :: vs)
      | None => None
      end
  | _ :: _ => None
  end.

(** Modelled from the spec: the rejection reasons, index-aligned, when every
    input rejects. *)
Fixpoint rejected_reasons (os : list outcome) : option (list value) :=
  match os with
  | [] => Some []
  | Rejected _ r :: rest =>
      match rejected_reasons rest with
      | Some rs => Some (r :: rs)
      | None => None
      end
  | _ :: _ => None
  end.

(** Modelled from the spec: the turn in which the aggregate of [os] is
    known: at once for no input, otherwise one turn after the last
    settlement. *)
Fixpoint latest (os : list outcome) : nat :=
  match os with
  | [] => 0
  | Pending :: rest => latest rest
  | Fulfilled t _ :: rest => Nat.max (S t) (latest rest)
  | Rejected t _ :: rest => Nat.max (S t) (latest rest)
  end.

(** Modelled from the spec: [Promise.all] (lib/array.js, absent).  Succeeds
    with the index-aligned values once every element has fulfilled, at once
    for an empty sequence; fails as soon as one element rejects, with that
    element's reason, the first rejection winning. *)
Definition all (arr : list value) : outcome :=
  let os := map resolve arr in
  match first_rejection os with
  | Some (t, r) => Rejected (S t) r
  | None =>
      match fulfilled_values os with
      | Some vs => Fulfilled (latest os) (VArr vs)
      | None => Pending
      end
  end.

(** Modelled from the spec: [Promise.any] (absent).  Fulfils with the value
    of the element that fulfils first; rejects only when every element has
    rejected, with all the reasons index-aligned.  For the empty sequence the
    spec leaves the choice open but forbids fulfilling: here it rejects with
    the empty sequence of reasons. *)
Definition any (arr : list value) : outcome :=
  let os := map resolve arr in
  match first_fulfilment os with
  | Some (t, v) => Fulfilled (S t) v
  | None =>
      match rejected_reasons os with
      | Some rs => Rejected (latest os) (VArr rs)
      | None => Pending
      end
  end.

(** Modelled from the spec: the outcome descriptor of a settled element. *)
Definition descriptor (o : outcome) : option value :=
  match o with
  | Pending => None
  | Fulfilled _ v => Some (VObj [("state", VStr "fulfilled"); ("value", v)])
  | Rejected _ r => Some (VObj [("state", VStr "rejected"); ("reason", r)])
  end.

(** Modelled from the spec: the descriptors, index-aligned, when every input
    has settled. *)
Fixpoint descriptors (os : list outcome) : option (list value) :=
  match os with
  | [] => Some []
  | o :: rest =>
      match descriptor o, descriptors rest with
      | Some d, Some ds => Some (d :: ds)
      | _, _ => None
      end
  end.

(** Modelled from the spec: [Promise.settle] (absent).  Waits for every
    element to settle and fulfils with their outcome descriptors,
    index-aligned; it never rejects. *)
Definition settle (arr : list value) : outcome :=
  let os := map resolve arr in
  match descriptors os with
  | Some ds => Fulfilled (latest os) (VArr ds)
  | None => Pending
  end.

(** Modelled from the spec: [Promise.map] (absent).  Every element is
    awaited and handed to [mapFunc], whose result is awaited in turn; the
    results are aggregated as by [all].  The calls are logged in index
    order. *)
Definition map `{Env} (arr : list value) (mapFunc : value) : M outcome :=
  os <- mapM (fun x =>
                then_ (resolve x)
                      (Some (fun v => call_value mapFunc VUndefined [v])) None) arr ;;
  ret (all (List.map VFuture os)).

(** *** Races: settlement events *)

(** Modelled from the spec: one input settling: in which turn, whether it
    fulfilled, and with what. *)
Record event : Type := mkEvent {
  ev_time : nat;
  ev_fulfilled : bool;
  ev_payload : value
}.

(** Modelled from the spec: settlement order.  Insertion before the first
    event that is not earlier, so that of two inputs settling in the same
    turn the one of lower index is seen first. *)
Fixpoint insert_event (e : event) (l : list event) : list event :=
  match l with
  | [] => [e]
  | e' :: l' =>
      if ev_time e <=? ev_time e' then e :: e' :: l'
      else e' :: insert_event e l'
  end.

(** Modelled from the spec: the settlement events of the inputs, in
    settlement order.  An input that stays pending gives no event. *)
Fixpoint settlements (os : list outcome) : list event :=
  match os with
  | [] => []
  | Pending :: rest => settlements rest
  | Fulfilled t v :: rest => insert_event (mkEvent t true v) (settlements rest)
  | Rejected t r :: rest => insert_event (mkEvent t false r) (settlements rest)
  end.

(** Modelled from the spec: the private state of one race (section 3, race
    result): winners and losers in settlement order, and the result, settled
    at most once. *)
Record race : Type := mkRace {
  winners : list value;
  losers : list value;
  result : outcome
}.

(** Modelled from the spec: how many rejections make success impossible:
    [(N - howMany) + 1], and all [N] when [howMany] exceeds [N]. *)
Definition reject_after (n : nat) (howMany : Z) : Z :=
  if (Z.of_nat n <? howMany)%Z then Z.of_nat n
  else (Z.of_nat n - howMany + 1)%Z.

(** Modelled from the spec: the race before any event.  With [howMany <= 0]
    it is won at once with the empty sequence. *)
Definition race_start (n : nat) (howMany : Z) : race :=
  mkRace [] []
    (if (howMany <=? 0)%Z then Fulfilled 0 (VArr [])
     else if (reject_after n howMany =? 0)%Z then Rejected 0 (VArr [])
     else Pending).

(** Modelled from the spec: one settlement event.  A pending race records it
    and settles when it is the [howMany]-th fulfilment or the rejection that
    makes success impossible; a settled race ignores it. *)
Definition race_step (n : nat) (howMany : Z) (st : race) (e : event) : race :=
  match result st with
  | Pending =>
      if ev_fulfilled e then
        let w := winners st ++ [ev_payload e] in
        mkRace w (losers st)
          (if (Z.of_nat (length w) =? howMany)%Z
           then Fulfilled (S (ev_time e)) (VArr w) else Pending)
      else
        let l := losers st ++ [ev_payload e] in
        mkRace (winners st) l
          (if (Z.of_nat (length l) =? reject_after n howMany)%Z
           then Rejected (S (ev_time e)) (VArr l) else Pending)
  | _ => st
  end.

(** Modelled from the spec: the race after the given settlement events, in
    order. *)
Definition race_after (n : nat) (howMany : Z) (evs : list event) : race :=
  fold_left (race_step n howMany) evs (race_start n howMany).

(** Modelled from the spec: [Promise.some] (lib/array.js, absent).  Resolves
    once [howMany] elements have fulfilled, with their values in settlement
    order, at once with the empty sequence when [howMany <= 0]; rejects once
    [(N - howMany) + 1] elements have rejected, with those reasons in
    settlement order. *)
Definition some (arr : list value) (howMany : Z) : outcome :=
  result (race_after (length arr) howMany (settlements (List.map resolve arr))).

(** *** Folds *)

(** Modelled from the spec: the reducing function
    [f(accumulated, currentValue, index, length)]. *)
Definition reducer : Type := value -> value -> Z -> Z -> M value.

(** Modelled from the spec: a user function as the reducing function. *)
Definition user_reducer `{Env} (f : value) : reducer :=
  fun a x i len => call_value f VUndefined [a; x; VNum i; VNum len].

(** Modelled from the spec: one step of the fold.  The previous step's
    result is awaited, then the current element, then [f] is called; a
    failure of either await passes on without calling [f]. *)
Definition reduce_step (f : reducer) (len : Z) (acc : outcome) (ix : Z * value)
  : M outcome :=
  match acc with
  | Pending => ret Pending
  | Rejected t r => ret (Rejected t r)
  | Fulfilled t a =>
      match resolve (snd ix) with
      | Pending => ret Pending
      | Rejected tx r => ret (Rejected (S (Nat.max t tx)) r)
      | Fulfilled tx x =>
          run_handler (S (Nat.max t tx)) (fun x => f a x (fst ix) len) x
      end
  end.

(** Modelled from the spec: the elements with their indices. *)
Fixpoint indexed (i : Z) (l : list value) : list (Z * value) :=
  match l with
  | [] => []
  | x :: rest => (i, x) :: indexed (i + 1)%Z rest
  end.

(** Modelled from the spec: folding the indexed elements in the given order;
    without an initial value the first of them seeds the accumulator, and
    there being none is a TypeError. *)
Definition fold_steps (f : reducer) (len : Z) (ixs : list (Z * value))
  (initialValue : option value) : M outcome :=
  match initialValue with
  | Some i => foldM (reduce_step f len) ixs (resolve i)
  | None =>
      match ixs with
      | [] => throw TypeError
      | ix :: rest => foldM (reduce_step f len) rest (resolve (snd ix))
      end
  end.

(** Modelled from the spec: [Promise.reduce] (absent).  A strictly
    sequential fold from the left; the initial value, when given, is awaited
    before the first step. *)
Definition reduce (arr : list value) (f : reducer) (initialValue : option value)
  : M outcome :=
  fold_steps f (Z.of_nat (length arr)) (indexed 0 arr) initialValue.

(** Modelled from the spec: [Promise.reduceRight] (absent).  The same fold
    from the right. *)
Definition reduceRight (arr : list value) (f : reducer) (initialValue : option value)
  : M outcome :=
  fold_steps f (Z.of_nat (length arr)) (rev (indexed 0 arr)) initialValue.

End Promise.

(** ** when.js *)

Module WhenJs.

Section Api.
Context `{Env}.

(** [when(promiseOrValue, onFulfilled, onRejected, onProgress)], line 174.
    The progress handler is not modelled. *)
Definition when (promiseOrValue : value) (onFulfilled onRejected : Promise.handler)
  : M outcome :=
  Promise.then_ (Promise.resolve promiseOrValue) onFulfilled onRejected.

(** try/lift helper, line 214: the arguments are awaited together and [func]
    is applied to the awaited values inside the fulfilment handler. *)
Definition _apply (func thisArg : value) (args : list value) : M outcome :=
  Promise.then_ (Promise.all args)
    (Some (fun args => func_apply func thisArg args)) None.

(** [tryCall(f, args...)], line 193, given its [this] and its argument
    list. *)
Definition tryCall (this : value) (arguments : list value) : M outcome :=
  _apply (nth 0 arguments VUndefined) this (skipn 1 arguments).

(** [lift(f)], line 204: the returned function, given its [this] and its
    argument list. *)
Definition lift (f : value) : value -> list value -> M outcome :=
  fun this arguments => _apply f this arguments.

(** Line 260 *)
Definition isPromiseLike (x : value) : completion value :=
  if truthy x then
    match get x "then" with
    | Normal m => Normal (VBool (String.eqb (typeof m) "function"))
    | Throw e => Throw e
    end
  else Normal x.

(** Line 277 *)
Definition some (promises : value) (howMany : Z) : M outcome :=
  when promises
    (Some (fun array =>
             l <- Promise.elements array ;;
             ret (VFuture (Promise.some l howMany))))
    None.

(** Line 293 *)
Definition any (promises : value) : M outcome :=
  when promises
    (Some (fun array =>
             l <- Promise.elements array ;; ret (VFuture (Promise.any l))))
    None.

(** Line 305 *)
Definition all (promises : value) : M outcome :=
  when promises
    (Some (fun array =>
             l <- Promise.elements array ;; ret (VFuture (Promise.all l))))
    None.

(** Line 316: the arguments, collected into an array, go to [all]. *)
Definition join (arguments : list value) : M outcome :=
  all (VArr arguments).

(** Line 329 *)
Definition settle (promises : value) : M outcome :=
  when promises
    (Some (fun array =>
             l <- Promise.elements array ;; ret (VFuture (Promise.settle l))))
    None.

(** Line 341 *)
Definition map (promises : value) (mapFunc : value) : M outcome :=
  when promises
    (Some (fun promises =>
             l <- Promise.elements promises ;;
             o <- Promise.map l mapFunc ;;
             ret (VFuture o)))
    None.

(** Line 358.  [args] is [f] followed by the initial value when one was
    passed; the awaited array is put in front and all go to
    [Promise.reduce]. *)
Definition reduce (promises : value) (f : Promise.reducer)
  (initialValue : option value) : M outcome :=
  when promises
    (Some (fun array =>
             l <- Promise.elements array ;;
             o <- Promise.reduce l f initialValue ;;
             ret (VFuture o)))
    None.

(** Line 378 *)
Definition reduceRight (promises : value) (f : Promise.reducer)
  (initialValue : option value) : M outcome :=
  when promises
    (Some (fun array =>
             l <- Promise.elements array ;;
             o <- Promise.reduceRight l f initialValue ;;
             ret (VFuture o)))
    None.

End Api.

(** *** [defer], line 233

    A deferred is an object with identity, and the promise constructor hands
    out functions tied to the promise it creates; both live in a store. *)

Inductive capability : Type := Resolve | Reject | Notify.

(** What a field of a deferred holds: [void 0], a promise, or one of the
    three functions the constructor makes for a promise. *)
Inductive field : Type :=
| Void
| PromiseRef (p : nat)
| Settler (c : capability) (p : nat).

Record resolver_object : Type := mkResolver {
  resolver_resolve : field;
  resolver_reject : field;
  resolver_notify : field
}.

Record deferred : Type := mkDeferred {
  promise : field;
  resolve : field;
  reject : field;
  notify : field;
  resolver : resolver_object
}.

(** The store: how many promises were constructed so far, and the deferred
    objects, each at the address that is its place in the list. *)
Record store : Type := mkStore {
  next_promise : nat;
  objects : list deferred
}.

Fixpoint update_nth (a : nat) (f : deferred -> deferred) (l : list deferred)
  : list deferred :=
  match a, l with
  | _, [] => []
  | O, d :: rest => f d :: rest
  | S a', d :: rest => d :: update_nth a' f rest
  end.

Definition update (a : nat) (f : deferred -> deferred) (s : store) : store :=
  mkStore (next_promise s) (update_nth a f (objects s)).

Definition set_promise (x : field) (d : deferred) : deferred :=
  mkDeferred x (resolve d) (reject d) (notify d) (resolver d).
Definition set_resolve (x : field) (d : deferred) : deferred :=
  mkDeferred (promise d) x (reject d) (notify d) (resolver d).
Definition set_reject (x : field) (d : deferred) : deferred :=
  mkDeferred (promise d) (resolve d) x (notify d) (resolver d).
Definition set_notify (x : field) (d : deferred) : deferred :=
  mkDeferred (promise d) (resolve d) (reject d) x (resolver d).
Definition set_resolver_resolve (x : field) (d : deferred) : deferred :=
  mkDeferred (promise d) (resolve d) (reject d) (notify d)
    (mkResolver x (resolver_reject (resolver d)) (resolver_notify (resolver d))).
Definition set_resolver_reject (x : field) (d : deferred) : deferred :=
  mkDeferred (promise d) (resolve d) (reject d) (notify d)
    (mkResolver (resolver_resolve (resolver d)) x (resolver_notify (resolver d))).
Definition set_resolver_notify (x : field) (d : deferred) : deferred :=
  mkDeferred (promise d) (resolve d) (reject d) (notify d)
    (mkResolver (resolver_resolve (resolver d)) (resolver_reject (resolver d)) x).

(** Modelled from the spec: the constructor [new Promise(resolver)] of
    lib/Promise.js (absent).  It creates a new pending promise and calls
    [resolver(resolve, reject, notify)] synchronously, with three functions
    made for that promise, before it returns the promise. *)
Definition new_Promise (resolver : field -> field -> field -> store -> store)
  (s : store) : field * store :=
  let p := next_promise s in
  let s := mkStore (S p) (objects s) in
  (PromiseRef p, resolver (Settler Resolve p) (Settler Reject p) (Settler Notify p) s).

(** The object literal of line 235 *)
Definition blank : deferred :=
  mkDeferred Void Void Void Void (mkResolver Void Void Void).

(** [makeDeferred], line 245, closing over the deferred at address [a].  In
    each chained assignment the resolver's field is written first. *)
Definition makeDeferred (a : nat) (resolvePending rejectPending notifyPending : field)
  (s : store) : store :=
  let s := update a (set_resolver_resolve resolvePending) s in
  let s := update a (set_resolve resolvePending) s in
  let s := update a (set_resolver_reject rejectPending) s in
  let s := update a (set_reject rejectPending) s in
  let s := update a (set_resolver_notify notifyPending) s in
  let s := update a (set_notify notifyPending) s in
  s.

(** [defer()]: the address of the deferred it returns, and the store it
    leaves. *)
Definition defer (s : store) : nat * store :=
  let a := length (objects s) in
  let s := mkStore (next_promise s) (objects s ++ [blank]) in
  let (p, s) := new_Promise (makeDeferred a) s in
  let s := update a (set_promise p) s in
  (a, s).

End WhenJs.

(** ** function.js *)

Module FunctionJs.

Section Api.
Context `{Env}.

(** [apply(func, promisedArgs)], line 37, given its [this] and its argument
    list: the branch is on the number of arguments passed. *)
Definition apply (this : value) (arguments : list value) : M outcome :=
  let func := nth 0 arguments VUndefined in
  let promisedArgs := nth 1 arguments VUndefined in
  if 1 <? length arguments
  then WhenJs.tryCall this (concat [func] promisedArgs)
  else WhenJs.tryCall this [func].

(** What the function returned by [lift] closes over: [func], and the array
    [args], created once by [lift] and shared by all invocations. *)
Record lifted : Type := mkLifted {
  lifted_func : value;
  lifted_args : list value
}.

(** [lift(func, args...)], line 55 *)
Definition lift (func : value) (boundArgs : list value) : lifted :=
  mkLifted func boundArgs.

(** One invocation of the function returned by [lift], lines 57 to 61:
    [func] is put in front of [args], the call arguments are appended to
    [args], and [args] goes to [tryCall].  The array is updated in place, so
    the invocation also yields the closure as the next invocation finds
    it. *)
Definition invoke (g : lifted) (this : value) (arguments : list value)
  : M outcome * lifted :=
  let args := lifted_func g :: lifted_args g in
  let args := args ++ arguments in
  (WhenJs.tryCall this args, mkLifted (lifted_func g) args).

(** [compose(f, funcs...)], line 81: the returned function, given its [this]
    and its argument list. *)
Definition compose (f : value) (funcs : list value)
  : value -> list value -> M outcome :=
  fun thisArg args =>
    firstPromise <- WhenJs.tryCall thisArg (concat [f] (VArr args)) ;;
    WhenJs.reduce (VArr funcs)
      (fun arg func _ _ => call_value func thisArg [arg])
      (Some (VFuture firstPromise)).

End Api.

End FunctionJs.

(** ** Vocabulary of the statements *)

(** [args] all await successfully, to the values [vs]. *)
Definition awaits (args vs : list value) : Prop :=
  Promise.fulfilled_values (List.map Promise.resolve args) = Some vs.

(** An environment in which every function returns [undefined]. *)
Definition quiet : Env := fun _ _ _ => Normal VUndefined.


(** The deferred at address [a] of a store. *)
Definition deferred_at (a : nat) (s : WhenJs.store) : option WhenJs.deferred :=
  nth_error (WhenJs.objects s) a.

(** The deferred pair made for promise [p]: every field set, the two copies
    of each function the same. *)
Definition pair_for (p : nat) : WhenJs.deferred :=
  WhenJs.mkDeferred (WhenJs.PromiseRef p)
    (WhenJs.Settler WhenJs.Resolve p) (WhenJs.Settler WhenJs.Reject p)
    (WhenJs.Settler WhenJs.Notify p)
    (WhenJs.mkResolver (WhenJs.Settler WhenJs.Resolve p)
       (WhenJs.Settler WhenJs.Reject p) (WhenJs.Settler WhenJs.Notify p)).

(** The store after one call of [defer] on the empty store. *)
Definition one_deferred : WhenJs.store :=
  snd (WhenJs.defer (WhenJs.mkStore 0 [])).

(** *** The pipeline of [compose], in the spec's words

    The arguments are awaited and [f] is applied to them; the awaited result
    of each stage is handed to the next stage, strictly from left to right;
    once a stage has thrown or its result has rejected, the pipeline has
    failed with that reason and no further stage is called. *)

Inductive piped : Type :=
| Piped (v : value)
| Failed (r : value)
| Stalled.

(** A future as the pipeline sees it once it has settled. *)
Definition settled (o : outcome) : piped :=
  match o with
  | Pending => Stalled
  | Fulfilled _ v => Piped v
  | Rejected _ r => Failed r
  end.

(** The awaited result of a stage. *)
Definition awaited (c : completion value) : piped :=
  match c with
  | Throw e => Failed e
  | Normal x => settled (Promise.resolve x)
  end.

Fixpoint pipe `{Env} (thisArg : value) (stages : list fid) (p : piped) (lg : log)
  : piped * log :=
  match stages, p with
  | s :: rest, Piped a =>
      pipe thisArg rest (awaited (fenv s thisArg [a])) (lg ++ [mkCall s thisArg [a]])
  | _, _ => (p, lg)
  end.

Definition pipeline_spec `{Env} (thisArg : value) (f : fid) (fs : list fid)
  (args : list value) (lg : log) : piped * log :=
  match Promise.all args with
  | Fulfilled _ (VArr vs) =>
      pipe thisArg fs (awaited (fenv f thisArg vs)) (lg ++ [mkCall f thisArg vs])
  | o => (settled o, lg)
  end.

(** An environment with a few functions to run: increment, doubling, an
    asynchronous decrement by three, and a function that throws its
    argument. *)
Definition sample : Env :=
  fun f _ args =>
    match f, args with
    | 0, [VNum n] => Normal (VNum (n + 1))
    | 1, [VNum n] => Normal (VNum (2 * n))
    | 2, [VNum n] => Normal (VFuture (Fulfilled 9 (VNum (n - 3))))
    | 3, [x] => Throw x
    | _, _ => Normal VUndefined
    end.

(** The settlement events of the elements of an input sequence, in
    settlement order; those of them that are rejections, and those that are
    fulfilments. *)
Definition input_events (arr : list value) : list Promise.event :=
  Promise.settlements (List.map Promise.resolve arr).

Definition rejecting (evs : list Promise.event) : list Promise.event :=
  filter (fun e => negb (Promise.ev_fulfilled e)) evs.

Definition fulfilling (evs : list Promise.event) : list Promise.event :=
  filter Promise.ev_fulfilled evs.

(** *** Further vocabulary *)


(** The closure of a function returned by [lift] of function.js after the
    given invocations, one argument list each. *)
Fixpoint invoke_all `{Env} (g : FunctionJs.lifted) (this : value)
  (calls : list (list value)) : FunctionJs.lifted :=
  match calls with
  | [] => g
  | c :: rest => invoke_all (snd (FunctionJs.invoke g this c)) this rest
  end.

(** The store after [k] more calls of [defer]. *)
Fixpoint defer_times (k : nat) (s : WhenJs.store) : WhenJs.store :=
  match k with
  | O => s
  | S k' => defer_times k' (snd (WhenJs.defer s))
  end.


(** * Properties *)

(** ** The primitive *)

Lemma resolve_rejected (x : value) (t : nat) (r : value) :
  Promise.resolve x = Rejected t r <-> x = VFuture (Rejected t r).
Proof.
  split; intros H.
  - destruct x; simpl in H; try discriminate. now subst.
  - now subst.
Qed.

Lemma fulfilled_no_rejection (os : list outcome) (vs : list value) :
  Promise.fulfilled_values os = Some vs -> Promise.first_rejection os = None.
Proof.
  revert vs; induction os as [|o os IH]; intros vs Hvs; [reflexivity|].
  destruct o; simpl in *; try discriminate.
  destruct (Promise.fulfilled_values os) eqn:E; [|discriminate].
  eauto.
Qed.

Lemma all_fulfils (args vs : list value) :
  awaits args vs ->
  Promise.all args =
  Fulfilled (Promise.latest (List.map Promise.resolve args)) (VArr vs).
Proof.
  unfold awaits, Promise.all; intros Hvs.
  now rewrite (fulfilled_no_rejection _ _ Hvs), Hvs.
Qed.

(** [first_rejection] finds an earliest rejection when there is one. *)
Lemma first_rejection_spec (os : list outcome) :
  match Promise.first_rejection os with
  | Some (t0, r0) =>
      In (Rejected t0 r0) os /\
      forall t' r', In (Rejected t' r') os -> t0 <= t'
  | None => forall t' r', ~ In (Rejected t' r') os
  end.
Proof.
  induction os as [|o os IH]; simpl; [tauto|].
  destruct o as [|t v|t r].
  - destruct (Promise.first_rejection os) as [[t0 r0]|].
    + destruct IH as [Hin Hmin]. split; [now right|].
      intros t' r' [E|H']; [discriminate|eauto].
    + intros t' r' [E|H']; [discriminate|]. now apply (IH t' r').
  - destruct (Promise.first_rejection os) as [[t0 r0]|].
    + destruct IH as [Hin Hmin]. split; [now right|].
      intros t' r' [E|H']; [discriminate|eauto].
    + intros t' r' [E|H']; [discriminate|]. now apply (IH t' r').
  - destruct (Promise.first_rejection os) as [[t0 r0]|].
    + destruct IH as [Hin Hmin]. destruct (Nat.leb_spec t t0).
      * split; [now left|].
        intros t' r' [E|H']; [inversion E; lia|].
        specialize (Hmin _ _ H'). lia.
      * split; [now right|].
        intros t' r' [E|H']; [inversion E; lia|eauto].
    + split; [now left|].
      intros t' r' [E|H']; [inversion E; lia|].
      now destruct (IH t' r').
Qed.

Lemma in_resolved_rejected (args : list value) (t : nat) (r : value) :
  In (Rejected t r) (List.map Promise.resolve args) <->
  In (VFuture (Rejected t r)) args.
Proof.
  rewrite in_map_iff. split.
  - intros (x & Hx & Hin). apply resolve_rejected in Hx. now subst.
  - intros Hin. exists (VFuture (Rejected t r)). now split.
Qed.

(** With a rejecting element, [all] rejects with the reason of an earliest
    one. *)
Lemma all_rejects (args : list value) (t : nat) (r : value) :
  In (VFuture (Rejected t r)) args ->
  exists t0 r0,
    Promise.all args = Rejected (S t0) r0 /\
    In (VFuture (Rejected t0 r0)) args /\
    forall t' r', In (VFuture (Rejected t' r')) args -> t0 <= t'.
Proof.
  intros Hin. apply in_resolved_rejected in Hin.
  unfold Promise.all.
  pose proof (first_rejection_spec (List.map Promise.resolve args)) as Hspec.
  destruct (Promise.first_rejection (List.map Promise.resolve args)) as [[t0 r0]|].
  - destruct Hspec as [Hin0 Hmin]. exists t0, r0.
    split; [reflexivity|]. split; [now apply in_resolved_rejected|].
    intros t' r' H'. apply (Hmin t' r'). now apply in_resolved_rejected.
  - now destruct (Hspec t r).
Qed.

(** ** [_apply] *)

Section ApplyLemmas.
Context `{Env}.

(** The arguments await: [func] is called once, one turn after the
    aggregate is known, and its completion settles the result. *)
Lemma _apply_awaited (f : fid) (thisArg : value) (args vs : list value) (lg : log) :
  awaits args vs ->
  WhenJs._apply (VFun f) thisArg args lg =
  (Normal (Promise.conclude (S (Promise.latest (List.map Promise.resolve args)))
                            (fenv f thisArg vs)),
   lg ++ [mkCall f thisArg vs]).
Proof.
  intros Hvs. unfold WhenJs._apply. rewrite (all_fulfils _ _ Hvs). reflexivity.
Qed.

(** An argument rejects: [func] is not called. *)
Lemma _apply_rejected (func thisArg : value) (args : list value) (t : nat) (r : value)
  (lg : log) :
  Promise.all args = Rejected t r ->
  WhenJs._apply func thisArg args lg = (Normal (Rejected (S t) r), lg).
Proof. intros E. unfold WhenJs._apply. now rewrite E. Qed.

(** [_apply] never throws. *)
Lemma _apply_normal (func thisArg : value) (args : list value) (lg : log) :
  exists o lg', WhenJs._apply func thisArg args lg = (Normal o, lg').
Proof.
  unfold WhenJs._apply.
  destruct (Promise.all args) as [|t v|t r]; simpl; unfold ret; eauto.
  unfold Promise.run_handler. destruct (func_apply func thisArg v lg); eauto.
Qed.

End ApplyLemmas.

(** ** [when] and the outer input *)

Section WhenLemmas.
Context `{Env}.

(** A rejected outer input passes through [when] whatever the fulfilment
    handler is: the handler does not run. *)
Lemma when_rejected (t : nat) (r : value) (onFulfilled : Promise.handler) (lg : log) :
  WhenJs.when (VFuture (Rejected t r)) onFulfilled None lg =
  (Normal (Rejected (S t) r), lg).
Proof. reflexivity. Qed.

(** A bare array goes to the handler in the first turn. *)
Lemma all_of_array (arr : list value) (lg : log) :
  WhenJs.all (VArr arr) lg = (Normal (Promise.delay 1 (Promise.all arr)), lg).
Proof. reflexivity. Qed.

End WhenLemmas.

(** C2.  For each of all, any, some, settle, map, reduce and reduceRight: when
    the outer inputs argument is a future that rejects with reason [r], the
    returned future rejects with [r], and no user function is called (the
    call log is left as it was), whatever the other arguments are. *)
Theorem outer_rejection_propagates `{Env} (t : nat) (r : value) (howMany : Z)
  (mapFunc : value) (f : Promise.reducer) (initialValue : option value) (lg : log) :
  let inputs := VFuture (Rejected t r) in
  let rejected := (Normal (Rejected (S t) r), lg) in
  WhenJs.all inputs lg = rejected /\
  WhenJs.any inputs lg = rejected /\
  WhenJs.some inputs howMany lg = rejected /\
  WhenJs.settle inputs lg = rejected /\
  WhenJs.map inputs mapFunc lg = rejected /\
  WhenJs.reduce inputs f initialValue lg = rejected /\
  WhenJs.reduceRight inputs f initialValue lg = rejected.
Proof.
  cbv zeta.
  unfold WhenJs.all, WhenJs.any, WhenJs.some, WhenJs.settle, WhenJs.map,
    WhenJs.reduce, WhenJs.reduceRight.
  repeat split; apply when_rejected.
Qed.

(** C8.  [join(a1, ..., an)] is [all([a1, ..., an])], for every argument list
    and every call log: both give the aggregate of the arguments one turn
    later, and for no argument at all the empty array. *)
Theorem join_is_all `{Env} (arguments : list value) (lg : log) :
  WhenJs.join arguments lg = WhenJs.all (VArr arguments) lg /\
  WhenJs.join arguments lg = (Normal (Promise.delay 1 (Promise.all arguments)), lg) /\
  WhenJs.join [] lg = (Normal (Fulfilled 1 (VArr [])), lg).
Proof. repeat split. Qed.

(** C9.  [apply] branches on the number of arguments passed: [apply(func)]
    calls [func] with no argument, and [apply(func, x)] with [x] not an array
    calls [func] with the awaited [x] as its one argument, also when [x] is
    [undefined]. *)
Theorem apply_branches_on_argument_count `{Env} (f : fid) (this : value) (lg : log) :
  FunctionJs.apply this [VFun f] lg =
    (Normal (Promise.conclude 1 (fenv f this [])), lg ++ [mkCall f this []]) /\
  (forall x t v,
      is_array x = false ->
      Promise.resolve x = Fulfilled t v ->
      FunctionJs.apply this [VFun f; x] lg =
        (Normal (Promise.conclude (S (S t)) (fenv f this [v])),
         lg ++ [mkCall f this [v]])) /\
  FunctionJs.apply this [VFun f; VUndefined] lg =
    (Normal (Promise.conclude 2 (fenv f this [VUndefined])),
     lg ++ [mkCall f this [VUndefined]]).
Proof.
  split; [reflexivity|]. split; [|reflexivity].
  intros x t v Harr Hx.
  assert (Hc : concat [VFun f] x = [VFun f; x]) by (destruct x; try reflexivity; discriminate).
  unfold FunctionJs.apply. simpl. rewrite Hc. unfold WhenJs.tryCall. simpl.
  rewrite (_apply_awaited f this [x] [v]).
  - simpl. rewrite Hx. reflexivity.
  - unfold awaits. simpl. now rewrite Hx.
Qed.

Lemma apply_branches_on_argument_count_witness :
  @FunctionJs.apply quiet VNull [VFun 0; VNum 7] [] =
  (Normal (Fulfilled 2 VUndefined), [mkCall 0 VNull [VNum 7]]).
Proof.
  destruct (@apply_branches_on_argument_count quiet 0 VNull []) as (_ & Hx & _).
  apply (Hx (VNum 7) 0 (VNum 7)); reflexivity.
Defined.

(** ** [isPromiseLike] *)




(** C7.  What the code does on the values the claim singles out:
    [isPromiseLike(null)] is [null] and [isPromiseLike(undefined)] is
    [undefined], the left operand of [&&], and not the boolean [false]. *)
Theorem isPromiseLike_null_undefined :
  WhenJs.isPromiseLike VNull = Normal VNull /\
  WhenJs.isPromiseLike VUndefined = Normal VUndefined /\
  WhenJs.isPromiseLike VNull <> Normal (VBool false) /\
  WhenJs.isPromiseLike VUndefined <> Normal (VBool false).
Proof. repeat split; discriminate. Qed.

(** ** [defer] *)

Lemma update_nth_last (l : list WhenJs.deferred) (d : WhenJs.deferred)
  (f : WhenJs.deferred -> WhenJs.deferred) :
  WhenJs.update_nth (length l) f (l ++ [d]) = l ++ [f d].
Proof. induction l as [|x l IH]; simpl; [reflexivity|now rewrite IH]. Qed.

Lemma defer_computes (s : WhenJs.store) :
  WhenJs.defer s =
  (length (WhenJs.objects s),
   WhenJs.mkStore (S (WhenJs.next_promise s))
     (WhenJs.objects s ++ [pair_for (WhenJs.next_promise s)])).
Proof.
  unfold WhenJs.defer, WhenJs.new_Promise, WhenJs.makeDeferred, WhenJs.update.
  simpl. now rewrite !update_nth_last.
Qed.

(** C10.  [defer()] returns a deferred at a new address, leaving the deferred
    objects already in the store as they were; when it returns, the promise
    is a newly constructed one, [resolve], [reject] and [notify] are set to
    the functions the constructor made for that promise, and the fields of
    [resolver] hold the same three functions.  A second call returns
    another object, paired with another promise. *)
Theorem defer_fresh_pair (s : WhenJs.store) :
  let (a, s') := WhenJs.defer s in
  let p := WhenJs.next_promise s in
  deferred_at a s = None /\
  (forall b, b < length (WhenJs.objects s) -> deferred_at b s' = deferred_at b s) /\
  (exists d,
      deferred_at a s' = Some d /\
      WhenJs.promise d = WhenJs.PromiseRef p /\
      WhenJs.resolve d = WhenJs.Settler WhenJs.Resolve p /\
      WhenJs.reject d = WhenJs.Settler WhenJs.Reject p /\
      WhenJs.notify d = WhenJs.Settler WhenJs.Notify p /\
      WhenJs.resolver_resolve (WhenJs.resolver d) = WhenJs.resolve d /\
      WhenJs.resolver_reject (WhenJs.resolver d) = WhenJs.reject d /\
      WhenJs.resolver_notify (WhenJs.resolver d) = WhenJs.notify d) /\
  (let (a2, s2) := WhenJs.defer s' in
   a2 <> a /\
   deferred_at a s2 = deferred_at a s' /\
   exists d2, deferred_at a2 s2 = Some d2 /\
              WhenJs.promise d2 = WhenJs.PromiseRef (S p)).
Proof.
  rewrite defer_computes. cbv beta iota zeta. rewrite defer_computes.
  unfold deferred_at. simpl.
  split; [apply nth_error_None; lia|].
  split; [intros b Hb; now apply nth_error_app1|].
  split.
  - exists (pair_for (WhenJs.next_promise s)).
    rewrite nth_error_app2, Nat.sub_diag by lia. simpl. tauto.
  - rewrite length_app. simpl.
    split; [lia|]. split.
    + apply nth_error_app1. rewrite length_app. simpl. lia.
    + exists (pair_for (S (WhenJs.next_promise s))).
      rewrite nth_error_app2 by (rewrite length_app; simpl; lia).
      rewrite length_app. simpl.
      replace (length (WhenJs.objects s) + 1 - (length (WhenJs.objects s) + 1)) with 0 by lia.
      simpl. tauto.
Qed.

(** The deferred made by a first call is left as it is by a second call. *)
Lemma defer_fresh_pair_witness :
  deferred_at 0 (snd (WhenJs.defer one_deferred)) = deferred_at 0 one_deferred.
Proof.
  pose proof (defer_fresh_pair one_deferred) as Hpair.
  destruct (WhenJs.defer one_deferred) as [a s'].
  destruct Hpair as (_ & Hkept & _).
  apply Hkept. vm_compute. lia.
Defined.

(** ** [lift] of function.js *)

Lemma first_invocation `{Env} (func : value) (boundArgs : list value) (this : value)
  (callArgs : list value) :
  FunctionJs.invoke (FunctionJs.lift func boundArgs) this callArgs =
  (WhenJs._apply func this (boundArgs ++ callArgs),
   FunctionJs.mkLifted func (func :: boundArgs ++ callArgs)).
Proof. reflexivity. Qed.

(** C1.  What the code does on the second invocation of the same [g]:
    [g = lift(func, ...boundArgs)] called with [callArgs1] and then with
    [callArgs2] awaits, the second time, [func] itself, the bound arguments,
    the arguments of the first call and those of the second, and applies
    [func] to these; that is never the list of the bound arguments followed
    by [callArgs2]. *)
Theorem second_invocation_reuses_arguments `{Env} (func : value)
  (boundArgs callArgs1 callArgs2 : list value) (this1 this2 : value) :
  let g := FunctionJs.lift func boundArgs in
  let g' := snd (FunctionJs.invoke g this1 callArgs1) in
  fst (FunctionJs.invoke g this1 callArgs1) =
    WhenJs._apply func this1 (boundArgs ++ callArgs1) /\
  fst (FunctionJs.invoke g' this2 callArgs2) =
    WhenJs._apply func this2 (func :: boundArgs ++ callArgs1 ++ callArgs2) /\
  func :: boundArgs ++ callArgs1 ++ callArgs2 <> boundArgs ++ callArgs2.
Proof.
  cbv zeta. split; [reflexivity|]. split.
  - unfold FunctionJs.invoke, FunctionJs.lift, WhenJs.tryCall. simpl.
    now rewrite <- app_assoc.
  - intros E. apply (f_equal (@length value)) in E.
    simpl in E. rewrite !length_app in E. lia.
Qed.

(** The failing input of C1 run: [g = lift(func, 1)], then [g(2)] and [g(3)].
    The first call applies [func] to [1, 2]; the second applies it to
    [func, 1, 2, 3] and not to [1, 3]. *)
Example lift_called_twice :
  let g := @FunctionJs.lift (VFun 0) [VNum 1] in
  let (first, g') := @FunctionJs.invoke quiet g VNull [VNum 2] in
  let (second, _) := @FunctionJs.invoke quiet g' VNull [VNum 3] in
  snd (first []) = [mkCall 0 VNull [VNum 1; VNum 2]] /\
  snd (second []) = [mkCall 0 VNull [VFun 0; VNum 1; VNum 2; VNum 3]].
Proof. split; reflexivity. Qed.

(** ** Rejected arguments *)

(** C5, as stated, fails: of two arguments that reject, the future returned
    by [lift(fn)] carries the reason of the one that rejects first, and not
    the reason of the other. *)
Lemma lift_later_rejection_lost :
  let args := [VFuture (Rejected 5 (VStr "late")); VFuture (Rejected 1 (VStr "early"))] in
  ~ (forall t r,
        In (VFuture (Rejected t r)) args ->
        exists t', fst (@WhenJs.lift quiet (VFun 0) VNull args []) = Normal (Rejected t' r)).
Proof.
  cbv zeta. intros Hclaim.
  destruct (Hclaim 5 (VStr "late")) as (t' & E); [now left|].
  discriminate E.
Qed.

(** C5, amended.  When an argument of [lift(fn)] rejects, [fn] is not called
    (the call log is left as it was) and the returned future rejects with the
    reason of an argument that rejects earliest; so does the first invocation
    of [lift(fn, ...boundArgs)] of function.js. *)
Theorem lift_rejected_argument `{Env} (fn this : value) (boundArgs callArgs : list value)
  (t : nat) (r : value) (lg : log) :
  In (VFuture (Rejected t r)) (boundArgs ++ callArgs) ->
  exists t0 r0,
    In (VFuture (Rejected t0 r0)) (boundArgs ++ callArgs) /\
    (forall t' r', In (VFuture (Rejected t' r')) (boundArgs ++ callArgs) -> t0 <= t') /\
    WhenJs.lift fn this (boundArgs ++ callArgs) lg = (Normal (Rejected (S (S t0)) r0), lg) /\
    fst (FunctionJs.invoke (FunctionJs.lift fn boundArgs) this callArgs) lg =
      (Normal (Rejected (S (S t0)) r0), lg).
Proof.
  intros Hin. destruct (all_rejects _ _ _ Hin) as (t0 & r0 & Hall & Hin0 & Hmin).
  exists t0, r0. repeat split; try assumption.
  - unfold WhenJs.lift. now apply _apply_rejected.
  - rewrite first_invocation. simpl. now apply _apply_rejected.
Qed.

Lemma lift_rejected_argument_witness :
  exists t0 r0,
    In (VFuture (Rejected t0 r0)) ([VNum 1] ++ [VFuture (Rejected 4 (VStr "no"))]) /\
    (forall t' r', In (VFuture (Rejected t' r')) ([VNum 1] ++ [VFuture (Rejected 4 (VStr "no"))]) ->
                   t0 <= t') /\
    @WhenJs.lift quiet (VFun 0) VNull ([VNum 1] ++ [VFuture (Rejected 4 (VStr "no"))]) [] =
      (Normal (Rejected (S (S t0)) r0), []) /\
    fst (@FunctionJs.invoke quiet (FunctionJs.lift (VFun 0) [VNum 1]) VNull
           [VFuture (Rejected 4 (VStr "no"))]) [] =
      (Normal (Rejected (S (S t0)) r0), []).
Proof.
  apply (@lift_rejected_argument quiet (VFun 0) VNull [VNum 1]
           [VFuture (Rejected 4 (VStr "no"))] 4 (VStr "no") []).
  simpl. right. left. reflexivity.
Defined.

(** ** [compose] *)

Lemma all_fulfils_with_array (args : list value) (t : nat) (v : value) :
  Promise.all args = Fulfilled t v ->
  exists vs, v = VArr vs /\ awaits args vs.
Proof.
  unfold Promise.all, awaits.
  destruct (Promise.first_rejection _) as [[t0 r0]|]; [discriminate|].
  destruct (Promise.fulfilled_values _) as [vs|]; [|discriminate].
  intros E. inversion E. eauto.
Qed.

Lemma settled_delay (t : nat) (o : outcome) : settled (Promise.delay t o) = settled o.
Proof. now destruct o. Qed.

Lemma settled_conclude (t : nat) (c : completion value) :
  settled (Promise.conclude t c) = awaited c.
Proof. destruct c; simpl; [apply settled_delay|reflexivity]. Qed.

Lemma settled_piped (o : outcome) (v : value) :
  settled o = Piped v -> exists t, o = Fulfilled t v.
Proof. destruct o; simpl; intros E; inversion E; eauto. Qed.

Lemma settled_failed (o : outcome) (r : value) :
  settled o = Failed r -> exists t, o = Rejected t r.
Proof. destruct o; simpl; intros E; inversion E; eauto. Qed.

Section ComposeLemmas.
Context `{Env}.

(** A stage that does not receive a value is not called. *)
Lemma pipe_not_piped (thisArg : value) (stages : list fid) (p : piped) (lg : log) :
  (forall v, p <> Piped v) -> pipe thisArg stages p lg = (p, lg).
Proof. destruct stages, p; simpl; intros Hp; congruence. Qed.

Lemma pipe_app (thisArg : value) (pre post : list fid) (p : piped) (lg : log) :
  pipe thisArg (pre ++ post) p lg =
  pipe thisArg post (fst (pipe thisArg pre p lg)) (snd (pipe thisArg pre p lg)).
Proof.
  revert p lg. induction pre as [|s pre IH]; intros p lg; simpl.
  - now destruct post, p.
  - destruct p; simpl; try apply IH; now destruct post.
Qed.

(** The fold of [when.reduce] does not call the reducer once the accumulator
    has rejected or is known never to settle. *)
Lemma foldM_not_fulfilled (f : Promise.reducer) (len : Z) (ixs : list (Z * value))
  (acc : outcome) (lg : log) :
  (forall t v, acc <> Fulfilled t v) ->
  foldM (Promise.reduce_step f len) ixs acc lg = (Normal acc, lg).
Proof.
  intros Hacc. induction ixs as [|ix ixs IH]; simpl; [reflexivity|].
  unfold bind. destruct acc; simpl; try apply IH. now destruct (Hacc t v).
Qed.

(** The fold over the stages, with the reducer of [compose], is the pipe. *)
Lemma fold_stages_pipe (thisArg : value) (len : Z) (fs : list fid) (i : Z)
  (acc : outcome) (lg : log) :
  exists o,
    foldM (Promise.reduce_step (fun arg func _ _ => call_value func thisArg [arg]) len)
          (Promise.indexed i (List.map VFun fs)) acc lg
    = (Normal o, snd (pipe thisArg fs (settled acc) lg)) /\
    settled o = fst (pipe thisArg fs (settled acc) lg).
Proof.
  revert i acc lg. induction fs as [|s fs IH]; intros i acc lg.
  - exists acc. simpl. now destruct (settled acc).
  - destruct acc as [|t a|t r].
    + exists Pending. rewrite foldM_not_fulfilled by discriminate. now simpl.
    + simpl. unfold bind at 1. simpl. unfold Promise.run_handler. simpl.
      destruct (IH (i + 1)%Z
                  (Promise.conclude (S (Nat.max t 0)) (fenv s thisArg [a]))
                  (lg ++ [mkCall s thisArg [a]])) as (o & Ho & Hs).
      exists o. rewrite settled_conclude in Ho, Hs. now split.
    + exists (Rejected t r). rewrite foldM_not_fulfilled by discriminate. now simpl.
Qed.

(** [compose] runs the pipeline of the spec. *)
Lemma compose_runs_pipeline (f : fid) (fs : list fid) (thisArg : value)
  (args : list value) (lg : log) :
  exists o,
    FunctionJs.compose (VFun f) (List.map VFun fs) thisArg args lg =
      (Normal o, snd (pipeline_spec thisArg f fs args lg)) /\
    settled o = fst (pipeline_spec thisArg f fs args lg).
Proof.
  unfold FunctionJs.compose, pipeline_spec, WhenJs.tryCall. simpl.
  unfold bind at 1. unfold WhenJs._apply.
  destruct (Promise.all args) as [|t v|t r] eqn:Eall; simpl;
    cbv [WhenJs.reduce WhenJs.when Promise.then_ Promise.resolve Promise.run_handler
         bind ret Promise.elements Promise.reduce Promise.fold_steps].
  - exists Pending. rewrite foldM_not_fulfilled by discriminate. now simpl.
  - destruct (all_fulfils_with_array _ _ _ Eall) as (vs & -> & _). simpl.
    destruct (fold_stages_pipe thisArg (Z.of_nat (length (List.map VFun fs))) fs 0%Z
                (Promise.conclude (S t) (fenv f thisArg vs))
                (lg ++ [mkCall f thisArg vs])) as (o & Ho & Hs).
    rewrite Ho. exists (Promise.delay 1 o).
    rewrite settled_conclude in Hs. rewrite settled_conclude, settled_delay.
    now split.
  - exists (Rejected (Nat.max 1 (S t)) r).
    rewrite foldM_not_fulfilled by discriminate. now simpl.
Qed.

(** [compose] never throws: it returns a future. *)
Lemma compose_normal (f : value) (funcs : list value) (thisArg : value)
  (args : list value) (lg : log) :
  exists o lg', FunctionJs.compose f funcs thisArg args lg = (Normal o, lg').
Proof.
  unfold FunctionJs.compose, WhenJs.tryCall. simpl. unfold bind at 1.
  destruct (_apply_normal f thisArg args lg) as (o & lg' & ->).
  unfold WhenJs.reduce, WhenJs.when. simpl. unfold Promise.run_handler.
  destruct (bind _ _ lg'). eauto.
Qed.

End ComposeLemmas.

Section PipelineLemmas.
Context `{Env}.

Lemma pipeline_spec_app (thisArg : value) (f : fid) (pre post : list fid)
  (args : list value) (lg : log) :
  pipeline_spec thisArg f (pre ++ post) args lg =
  pipe thisArg post (fst (pipeline_spec thisArg f pre args lg))
                    (snd (pipeline_spec thisArg f pre args lg)).
Proof.
  unfold pipeline_spec.
  destruct (Promise.all args) as [|t v|t r] eqn:Eall.
  - now destruct post.
  - destruct (all_fulfils_with_array _ _ _ Eall) as (vs & -> & _). apply pipe_app.
  - now destruct post.
Qed.

(** The stages before [s] hand it [a], and [s] fails with [r]: the pipeline
    rejects with [r], and the call of [s] is the last one. *)
Lemma compose_stage_fails (f : fid) (pre : list fid) (s : fid) (post : list fid)
  (thisArg : value) (args : list value) (lg lg1 : log) (a r : value) :
  pipeline_spec thisArg f pre args lg = (Piped a, lg1) ->
  awaited (fenv s thisArg [a]) = Failed r ->
  exists t,
    FunctionJs.compose (VFun f) (List.map VFun (pre ++ s :: post)) thisArg args lg =
    (Normal (Rejected t r), lg1 ++ [mkCall s thisArg [a]]).
Proof.
  intros Hpre Hs.
  destruct (compose_runs_pipeline f (pre ++ s :: post) thisArg args lg) as (o & Ho & Hset).
  rewrite pipeline_spec_app, Hpre in Ho, Hset. simpl in Ho, Hset.
  rewrite Hs in Ho, Hset. rewrite pipe_not_piped in Ho, Hset by discriminate.
  simpl in Ho, Hset. destruct (settled_failed _ _ Hset) as (t & ->). eauto.
Qed.

(** The first stage fails with [r] on the awaited arguments. *)
Lemma compose_first_stage_fails (f : fid) (fs : list fid) (thisArg : value)
  (args vs : list value) (lg : log) (r : value) :
  awaits args vs ->
  awaited (fenv f thisArg vs) = Failed r ->
  exists t,
    FunctionJs.compose (VFun f) (List.map VFun fs) thisArg args lg =
    (Normal (Rejected t r), lg ++ [mkCall f thisArg vs]).
Proof.
  intros Hvs Hf.
  destruct (compose_runs_pipeline f fs thisArg args lg) as (o & Ho & Hset).
  unfold pipeline_spec in Ho, Hset. rewrite (all_fulfils _ _ Hvs), Hf in Ho, Hset.
  rewrite pipe_not_piped in Ho, Hset by discriminate.
  simpl in Ho, Hset. destruct (settled_failed _ _ Hset) as (t & ->). eauto.
Qed.

End PipelineLemmas.

(** C6.  [compose(f, ...funcs)] applied to [args] runs the pipeline of the
    spec: the same calls in the same order, and the same result.  So, when
    the arguments reject, no stage is called; when a stage throws or its
    result rejects, the result rejects with that reason and the call of that
    stage is the last one, whatever stages follow; and when [f], [g] and [h]
    succeed in turn, [compose(f, g, h)(x)] fulfils with [h(g(f(x)))] after
    exactly these three calls. *)
Theorem compose_pipes_left_to_right `{Env} (f : fid) (thisArg : value)
  (args : list value) (lg : log) :
  (forall fs, exists o,
      FunctionJs.compose (VFun f) (List.map VFun fs) thisArg args lg =
        (Normal o, snd (pipeline_spec thisArg f fs args lg)) /\
      settled o = fst (pipeline_spec thisArg f fs args lg)) /\
  (forall fs t r,
      In (VFuture (Rejected t r)) args ->
      exists t0 r0,
        In (VFuture (Rejected t0 r0)) args /\
        FunctionJs.compose (VFun f) (List.map VFun fs) thisArg args lg =
          (Normal (Rejected (S (S t0)) r0), lg)) /\
  (forall fs vs r,
      awaits args vs ->
      awaited (fenv f thisArg vs) = Failed r ->
      exists t,
        FunctionJs.compose (VFun f) (List.map VFun fs) thisArg args lg =
          (Normal (Rejected t r), lg ++ [mkCall f thisArg vs])) /\
  (forall pre s post a lg1 r,
      pipeline_spec thisArg f pre args lg = (Piped a, lg1) ->
      awaited (fenv s thisArg [a]) = Failed r ->
      exists t,
        FunctionJs.compose (VFun f) (List.map VFun (pre ++ s :: post)) thisArg args lg =
          (Normal (Rejected t r), lg1 ++ [mkCall s thisArg [a]])) /\
  (forall g h vs a b c,
      awaits args vs ->
      awaited (fenv f thisArg vs) = Piped a ->
      awaited (fenv g thisArg [a]) = Piped b ->
      awaited (fenv h thisArg [b]) = Piped c ->
      exists t,
        FunctionJs.compose (VFun f) [VFun g; VFun h] thisArg args lg =
          (Normal (Fulfilled t c),
           lg ++ [mkCall f thisArg vs; mkCall g thisArg [a]; mkCall h thisArg [b]])).
Proof.
  split; [intros fs; apply compose_runs_pipeline|].
  split.
  { intros fs t r Hin.
    destruct (all_rejects _ _ _ Hin) as (t0 & r0 & Hall & Hin0 & _).
    exists t0, r0. split; [assumption|].
    unfold FunctionJs.compose, WhenJs.tryCall. simpl. unfold bind at 1.
    rewrite (_apply_rejected _ _ _ _ _ _ Hall).
    cbv [WhenJs.reduce WhenJs.when Promise.then_ Promise.resolve Promise.run_handler
         bind ret Promise.elements Promise.reduce Promise.fold_steps].
    rewrite foldM_not_fulfilled by discriminate. reflexivity. }
  split; [intros fs vs r; apply compose_first_stage_fails|].
  split; [intros pre s post a lg1 r; apply compose_stage_fails|].
  intros g h vs a b c Hvs Hf Hg Hh.
  destruct (compose_runs_pipeline f [g; h] thisArg args lg) as (o & Ho & Hset).
  unfold pipeline_spec in Ho, Hset. rewrite (all_fulfils _ _ Hvs) in Ho, Hset.
  simpl in Ho, Hset. rewrite Hf in Ho, Hset. rewrite Hg in Ho, Hset.
  rewrite Hh in Ho, Hset. simpl in Ho, Hset.
  destruct (settled_piped _ _ Hset) as (t & ->). exists t.
  rewrite Ho. now rewrite <- !app_assoc.
Qed.

(** [compose(f, g, h)(4)] with increment, doubling and the asynchronous
    decrement: [(4 + 1) * 2 - 3]. *)
Lemma compose_pipes_left_to_right_witness :
  exists t,
    @FunctionJs.compose sample (VFun 0) [VFun 1; VFun 2] VNull [VNum 4] [] =
    (Normal (Fulfilled t (VNum 7)),
     [] ++ [mkCall 0 VNull [VNum 4]; mkCall 1 VNull [VNum 5]; mkCall 2 VNull [VNum 10]]).
Proof.
  destruct (@compose_pipes_left_to_right sample 0 VNull [VNum 4] [])
    as (_ & _ & _ & _ & Hsync).
  apply (Hsync 1 2 [VNum 4] (VNum 5) (VNum 10) (VNum 7)); reflexivity.
Defined.

(** A stage that throws ends the pipeline: the stage after it is not
    called. *)
Example compose_stops_at_throw :
  @FunctionJs.compose sample (VFun 0) [VFun 3; VFun 1] VNull [VNum 4] [] =
  (Normal (Rejected 3 (VNum 5)), [mkCall 0 VNull [VNum 4]; mkCall 3 VNull [VNum 5]]).
Proof. reflexivity. Qed.

(** ** Synchronous throws *)

(** C4.  The lifted operations ([call]/[try], [apply], the two [lift]s and
    [compose]) return a future and throw nothing to their caller, whatever
    the functions do; and when the function, or a stage of a pipeline,
    throws [e] on the awaited arguments, the returned future rejects with
    [e]. *)
Theorem thrown_value_becomes_rejection `{Env} (this : value) (lg : log) :
  (forall arguments, exists o lg', WhenJs.tryCall this arguments lg = (Normal o, lg')) /\
  (forall arguments, exists o lg', FunctionJs.apply this arguments lg = (Normal o, lg')) /\
  (forall f arguments, exists o lg', WhenJs.lift f this arguments lg = (Normal o, lg')) /\
  (forall g arguments,
      exists o lg', fst (FunctionJs.invoke g this arguments) lg = (Normal o, lg')) /\
  (forall f funcs args,
      exists o lg', FunctionJs.compose f funcs this args lg = (Normal o, lg')) /\
  (forall f args vs e,
      awaits args vs ->
      fenv f this vs = Throw e ->
      let rejected :=
        (Normal (Rejected (S (Promise.latest (List.map Promise.resolve args))) e),
         lg ++ [mkCall f this vs]) in
      WhenJs.tryCall this (VFun f :: args) lg = rejected /\
      FunctionJs.apply this [VFun f; VArr args] lg = rejected /\
      WhenJs.lift (VFun f) this args lg = rejected /\
      (forall boundArgs callArgs,
          boundArgs ++ callArgs = args ->
          fst (FunctionJs.invoke (FunctionJs.lift (VFun f) boundArgs) this callArgs) lg
          = rejected) /\
      (forall fs, exists t,
          FunctionJs.compose (VFun f) (List.map VFun fs) this args lg =
          (Normal (Rejected t e), lg ++ [mkCall f this vs]))) /\
  (forall f pre s post args a lg1 e,
      pipeline_spec this f pre args lg = (Piped a, lg1) ->
      fenv s this [a] = Throw e ->
      exists t,
        FunctionJs.compose (VFun f) (List.map VFun (pre ++ s :: post)) this args lg =
        (Normal (Rejected t e), lg1 ++ [mkCall s this [a]])).
Proof.
  split; [intros; apply _apply_normal|].
  split.
  { intros arguments. unfold FunctionJs.apply.
    destruct (1 <? length arguments); apply _apply_normal. }
  split; [intros; apply _apply_normal|].
  split; [intros; apply _apply_normal|].
  split; [intros; apply compose_normal|].
  split.
  - intros f args vs e Hvs Hthrow. cbv zeta.
    assert (Happly : WhenJs._apply (VFun f) this args lg =
                     (Normal (Rejected (S (Promise.latest (List.map Promise.resolve args))) e),
                      lg ++ [mkCall f this vs])).
    { rewrite (_apply_awaited f this args vs lg Hvs), Hthrow. reflexivity. }
    repeat split; try exact Happly.
    + intros boundArgs callArgs <-. rewrite first_invocation. exact Happly.
    + intros fs. apply compose_first_stage_fails; [assumption|]. now rewrite Hthrow.
  - intros f pre s post args a lg1 e Hpre Hthrow.
    apply compose_stage_fails; [assumption|]. now rewrite Hthrow.
Qed.

Lemma thrown_value_becomes_rejection_witness :
  @WhenJs.tryCall sample VNull [VFun 3; VFuture (Fulfilled 2 (VStr "boom"))] [] =
  (Normal (Rejected 4 (VStr "boom")), [mkCall 3 VNull [VStr "boom"]]).
Proof.
  destruct (@thrown_value_becomes_rejection sample VNull [])
    as (_ & _ & _ & _ & _ & Hthrow & _).
  destruct (Hthrow 3 [VFuture (Fulfilled 2 (VStr "boom"))] [VStr "boom"] (VStr "boom")
              eq_refl eq_refl) as (Htry & _).
  exact Htry.
Defined.

(** ** The race of [some] *)

Lemma length_insert_event (e : Promise.event) (l : list Promise.event) :
  length (Promise.insert_event e l) = S (length l).
Proof.
  induction l as [|e' l IH]; simpl; [reflexivity|].
  destruct (_ <=? _); simpl; [reflexivity|now rewrite IH].
Qed.

(** Every input settles at most once: there are at most [N] events. *)
Lemma length_input_events (arr : list value) :
  length (input_events arr) <= length arr.
Proof.
  unfold input_events. induction arr as [|x arr IH]; simpl; [lia|].
  destruct (Promise.resolve x); simpl; rewrite ?length_insert_event; lia.
Qed.

Lemma length_fulfilling_rejecting (evs : list Promise.event) :
  length (fulfilling evs) + length (rejecting evs) = length evs.
Proof.
  unfold fulfilling, rejecting. induction evs as [|e evs IH]; simpl; [reflexivity|].
  destruct (Promise.ev_fulfilled e); simpl; lia.
Qed.

Lemma rejecting_app (l1 l2 : list Promise.event) :
  rejecting (l1 ++ l2) = rejecting l1 ++ rejecting l2.
Proof. apply filter_app. Qed.

Lemma fulfilling_app (l1 l2 : list Promise.event) :
  fulfilling (l1 ++ l2) = fulfilling l1 ++ fulfilling l2.
Proof. apply filter_app. Qed.

(** The event that brings the number of rejections to [k]. *)
Lemma split_at_rejection (k : nat) (evs : list Promise.event) :
  0 < k -> k <= length (rejecting evs) ->
  exists pre e post,
    evs = pre ++ e :: post /\
    Promise.ev_fulfilled e = false /\
    length (rejecting pre) = k - 1.
Proof.
  revert k. induction evs as [|e evs IH]; intros k Hk Hlen; simpl in Hlen; [lia|].
  destruct (Promise.ev_fulfilled e) eqn:Ee; simpl in Hlen.
  - destruct (IH k Hk Hlen) as (pre & e' & post & -> & He' & Hpre).
    exists (e :: pre), e', post. repeat split; [assumption|].
    simpl. now rewrite Ee.
  - destruct (Nat.eq_dec k 1) as [->|Hne].
    + exists [], e, evs. now repeat split.
    + destruct (IH (k - 1)) as (pre & e' & post & -> & He' & Hpre); [lia|lia|].
      exists (e :: pre), e', post. repeat split; [assumption|].
      simpl. rewrite Ee. simpl. lia.
Qed.

Section Race.
Variable n : nat.
Variable howMany : Z.
Hypothesis howMany_positive : (0 < howMany)%Z.
Hypothesis howMany_at_most_n : (howMany <= Z.of_nat n)%Z.

Let threshold : nat := Z.to_nat (Z.of_nat n - howMany + 1).

Lemma reject_after_threshold : Promise.reject_after n howMany = Z.of_nat threshold.
Proof.
  unfold Promise.reject_after, threshold.
  destruct (Z.ltb_spec (Z.of_nat n) howMany); lia.
Qed.

Lemma race_start_pending :
  Promise.race_start n howMany = Promise.mkRace [] [] Pending.
Proof.
  unfold Promise.race_start. rewrite reject_after_threshold.
  destruct (Z.leb_spec howMany 0); [lia|].
  destruct (Z.eqb_spec (Z.of_nat threshold) 0); [unfold threshold in *; lia|reflexivity].
Qed.

Lemma race_after_nil :
  Promise.race_after n howMany [] = Promise.mkRace [] [] Pending.
Proof. exact race_start_pending. Qed.

Lemma race_after_snoc (evs : list Promise.event) (e : Promise.event) :
  Promise.race_after n howMany (evs ++ [e]) =
  Promise.race_step n howMany (Promise.race_after n howMany evs) e.
Proof. unfold Promise.race_after. now rewrite fold_left_app. Qed.

(** A race that has settled ignores the events that follow. *)
Lemma race_settled_stays (evs : list Promise.event) (st : Promise.race) :
  Promise.result st <> Pending ->
  fold_left (Promise.race_step n howMany) evs st = st.
Proof.
  intros Hst. induction evs as [|e evs IH]; simpl; [reflexivity|].
  unfold Promise.race_step at 2. destruct (Promise.result st); congruence.
Qed.

(** While the race is pending, it has recorded every event so far. *)
Lemma race_pending_records (evs : list Promise.event) :
  Promise.result (Promise.race_after n howMany evs) = Pending ->
  Promise.winners (Promise.race_after n howMany evs)
    = List.map Promise.ev_payload (fulfilling evs) /\
  Promise.losers (Promise.race_after n howMany evs)
    = List.map Promise.ev_payload (rejecting evs).
Proof.
  induction evs as [|e evs IH] using rev_ind.
  - rewrite race_after_nil. now split.
  - rewrite race_after_snoc, fulfilling_app, rejecting_app, !map_app.
    unfold Promise.race_step.
    destruct (Promise.result (Promise.race_after n howMany evs)) eqn:Est.
    + destruct IH as [Hw Hl]; [reflexivity|].
      unfold fulfilling, rejecting. simpl.
      destruct (Promise.ev_fulfilled e); simpl; intros _;
        rewrite Hw, Hl, ?app_nil_r; now split.
    + intros E. congruence.
    + intros E. congruence.
Qed.

(** Below both thresholds the race is pending. *)
Lemma race_pending_below (evs : list Promise.event) :
  (Z.of_nat (length (fulfilling evs)) < howMany)%Z ->
  length (rejecting evs) < threshold ->
  Promise.result (Promise.race_after n howMany evs) = Pending.
Proof.
  induction evs as [|e evs IH] using rev_ind.
  - intros _ _. now rewrite race_after_nil.
  - rewrite fulfilling_app, rejecting_app, !length_app. intros Hf Hr.
    assert (Hpend : Promise.result (Promise.race_after n howMany evs) = Pending)
      by (apply IH; lia).
    destruct (race_pending_records evs Hpend) as [Hw Hl].
    rewrite race_after_snoc. unfold Promise.race_step. rewrite Hpend, Hw, Hl.
    rewrite reject_after_threshold.
    unfold fulfilling, rejecting in Hf, Hr. simpl in Hf, Hr.
    destruct (Promise.ev_fulfilled e); simpl in *; rewrite length_app, length_map; simpl.
    + destruct (Z.eqb_spec (Z.of_nat (length (fulfilling evs) + 1)) howMany);
        [unfold fulfilling in *; lia|reflexivity].
    + destruct (Z.eqb_spec (Z.of_nat (length (rejecting evs) + 1)) (Z.of_nat threshold));
        [unfold rejecting in *; lia|reflexivity].
Qed.

(** The race is not rejected before the rejections reach the threshold. *)
Lemma race_rejected_reached (evs : list Promise.event) (t : nat) (r : value) :
  Promise.result (Promise.race_after n howMany evs) = Rejected t r ->
  threshold <= length (rejecting evs).
Proof.
  revert t r. induction evs as [|e evs IH] using rev_ind; intros t r.
  - now rewrite race_after_nil.
  - rewrite race_after_snoc, rejecting_app, length_app. unfold Promise.race_step.
    destruct (Promise.result (Promise.race_after n howMany evs)) eqn:Est.
    + destruct (race_pending_records evs Est) as [Hw Hl].
      rewrite reject_after_threshold.
      unfold rejecting at 2. simpl.
      destruct (Promise.ev_fulfilled e); simpl.
      * destruct (_ =? _)%Z; discriminate.
      * rewrite Hl, length_app, length_map. simpl.
        destruct (Z.eqb_spec (Z.of_nat (length (rejecting evs) + 1)) (Z.of_nat threshold));
          [lia|discriminate].
    + rewrite Est. discriminate.
    + rewrite Est. intros _. specialize (IH _ _ eq_refl). lia.
Qed.

(** The rejection that reaches the threshold rejects the race, unless
    [howMany] inputs fulfilled before it. *)
Lemma race_rejects_at (pre : list Promise.event) (e : Promise.event)
  (post : list Promise.event) :
  Promise.ev_fulfilled e = false ->
  length (rejecting pre) = threshold - 1 ->
  (Z.of_nat (length (fulfilling pre)) < howMany)%Z ->
  Promise.result (Promise.race_after n howMany (pre ++ e :: post)) =
  Rejected (S (Promise.ev_time e))
           (VArr (List.map Promise.ev_payload (rejecting pre ++ [e]))).
Proof.
  intros He Hr Hf.
  assert (Hthr : 0 < threshold) by (unfold threshold; lia).
  assert (Hpend : Promise.result (Promise.race_after n howMany pre) = Pending)
    by (apply race_pending_below; lia).
  destruct (race_pending_records pre Hpend) as [Hw Hl].
  unfold Promise.race_after. rewrite fold_left_app. simpl.
  fold (Promise.race_after n howMany pre).
  assert (Hstep : Promise.result (Promise.race_step n howMany (Promise.race_after n howMany pre) e)
                  = Rejected (S (Promise.ev_time e))
                             (VArr (List.map Promise.ev_payload (rejecting pre ++ [e])))).
  { unfold Promise.race_step. rewrite Hpend, He, Hl, reject_after_threshold. simpl.
    rewrite length_app, length_map, map_app. simpl.
    destruct (Z.eqb_spec (Z.of_nat (length (rejecting pre) + 1)) (Z.of_nat threshold));
      [reflexivity|lia]. }
  rewrite race_settled_stays; [exact Hstep|]. rewrite Hstep. discriminate.
Qed.

End Race.

(** C3.  For an input sequence of length [N] and [0 < howMany <= N], the
    race of [some(inputs, howMany)], after any number [k] of settlement
    events of the inputs, is rejected exactly if at least [(N - howMany) + 1]
    of these events are rejections; it is then rejected since the event that
    was the [(N - howMany) + 1]-th rejection, with the reasons of the first
    [(N - howMany) + 1] rejections in settlement order.  The future returned
    by [some] follows the race after all events, whether the sequence is
    passed as it is or as a future for it. *)
Theorem some_rejects_at_threshold (arr : list value) (howMany : Z) (lg : log) :
  (0 < howMany <= Z.of_nat (length arr))%Z ->
  let N := length arr in
  let K := Z.to_nat (Z.of_nat N - howMany + 1) in
  let evs := input_events arr in
  (forall k,
      let seen := firstn k evs in
      let st := Promise.race_after N howMany seen in
      (length (rejecting seen) < K ->
       forall t r, Promise.result st <> Rejected t r) /\
      (K <= length (rejecting seen) ->
       exists e,
         nth_error (rejecting evs) (K - 1) = Some e /\
         Promise.result st =
         Rejected (S (Promise.ev_time e))
                  (VArr (List.map Promise.ev_payload (firstn K (rejecting evs)))))) /\
  WhenJs.some (VArr arr) howMany lg =
  (Normal (Promise.delay 1 (Promise.result (Promise.race_after N howMany evs))), lg) /\
  (forall t,
      WhenJs.some (VFuture (Fulfilled t (VArr arr))) howMany lg =
      (Normal (Promise.delay (S t) (Promise.result (Promise.race_after N howMany evs))),
       lg)).
Proof.
  intros [Hpos Hle]. cbv zeta. split; [|split; reflexivity].
  intros k. split.
  - intros Hlt t r E.
    pose proof (race_rejected_reached _ _ Hpos Hle _ _ _ E). lia.
  - intros Hreach.
    destruct (split_at_rejection (Z.to_nat (Z.of_nat (length arr) - howMany + 1))
                (firstn k (input_events arr)))
      as (pre & e & post & Hsplit & He & Hpre); [lia|assumption|].
    assert (Hevs : input_events arr = pre ++ e :: (post ++ skipn k (input_events arr))).
    { rewrite <- (firstn_skipn k (input_events arr)) at 1.
      rewrite Hsplit, <- app_assoc. reflexivity. }
    assert (Hrej : rejecting (input_events arr) =
                   rejecting pre ++ e :: rejecting (post ++ skipn k (input_events arr))).
    { rewrite Hevs at 1. rewrite rejecting_app. unfold rejecting at 2. simpl.
      now rewrite He. }
    exists e. split.
    + rewrite Hrej, nth_error_app2 by lia. rewrite Hpre, Nat.sub_diag. reflexivity.
    + rewrite Hsplit, Hrej.
      rewrite firstn_app, firstn_all2 by lia.
      replace (Z.to_nat (Z.of_nat (length arr) - howMany + 1) - length (rejecting pre))
        with 1 by lia.
      simpl. apply race_rejects_at; try assumption.
      pose proof (length_input_events arr) as Hlen.
      pose proof (length_firstn k (input_events arr)) as Hk.
      rewrite Hsplit, length_app in Hk. simpl in Hk.
      pose proof (length_fulfilling_rejecting pre). lia.
Qed.

(** Of three inputs, two must fulfil; the bare value fulfils at once, the
    last input rejects in turn 1 and the first in turn 3: the race is pending
    after two events and rejected by the third. *)
Lemma some_rejects_at_threshold_witness :
  let arr := [VFuture (Rejected 3 (VStr "a")); VNum 1; VFuture (Rejected 1 (VStr "b"))] in
  Promise.result (Promise.race_after 3 2 (firstn 2 (input_events arr))) = Pending /\
  exists e,
    nth_error (rejecting (input_events arr)) 1 = Some e /\
    Promise.result (Promise.race_after 3 2 (firstn 3 (input_events arr))) =
    Rejected (S (Promise.ev_time e)) (VArr [VStr "b"; VStr "a"]).
Proof.
  cbv zeta. split; [reflexivity|].
  destruct (some_rejects_at_threshold
              [VFuture (Rejected 3 (VStr "a")); VNum 1; VFuture (Rejected 1 (VStr "b"))]
              2%Z []) as [Hrace _]; [simpl; lia|].
  destruct (Hrace 3) as [_ Hreached].
  apply Hreached. simpl. lia.
Defined.

Example some_two_of_three :
  WhenJs.some
    (VArr [VFuture (Rejected 3 (VStr "a")); VNum 1; VFuture (Rejected 1 (VStr "b"))]) 2 [] =
  (Normal (Rejected 4 (VArr [VStr "b"; VStr "a"])), []).
Proof. reflexivity. Qed.

(** * Further properties of the code *)

(** ** [isPromiseLike] on every value *)


(** ** The array shared by the invocations of a lifted function *)

Lemma repeat_snoc_cons (x : value) (k : nat) (l : list value) :
  repeat x k ++ x :: l = x :: repeat x k ++ l.
Proof. induction k as [|k IH]; simpl; [reflexivity|now rewrite IH]. Qed.

Lemma invoke_all_state `{Env} (func : value) (a : list value) (this : value)
  (calls : list (list value)) :
  invoke_all (FunctionJs.mkLifted func a) this calls =
  FunctionJs.mkLifted func (repeat func (length calls) ++ a ++ List.concat calls).
Proof.
  revert a. induction calls as [|c calls IH]; intros a; simpl.
  - now rewrite app_nil_r.
  - rewrite IH. f_equal. rewrite <- repeat_snoc_cons. simpl.
    now rewrite <- !app_assoc.
Qed.

(** X2.  After [k] invocations of [g = lift(func, ...boundArgs)] the array
    that [g] closes over holds [k] copies of [func], the bound arguments and
    the arguments of all [k] calls; the next invocation behaves as
    [lift(func)] of when.js applied to [k] copies of [func], the bound
    arguments, all earlier call arguments and its own. *)
Theorem lift_arguments_accumulate `{Env} (func : value) (boundArgs : list value)
  (this : value) (calls : list (list value)) (this' : value) (callArgs : list value) :
  let g := invoke_all (FunctionJs.lift func boundArgs) this calls in
  g = FunctionJs.mkLifted func
        (repeat func (length calls) ++ boundArgs ++ List.concat calls) /\
  fst (FunctionJs.invoke g this' callArgs) =
    WhenJs.lift func this'
      (repeat func (length calls) ++ boundArgs ++ List.concat calls ++ callArgs) /\
  length (FunctionJs.lifted_args (snd (FunctionJs.invoke g this' callArgs))) =
    S (length (FunctionJs.lifted_args g) + length callArgs).
Proof.
  cbv zeta. unfold FunctionJs.lift. rewrite invoke_all_state.
  split; [reflexivity|]. split.
  - unfold FunctionJs.invoke, WhenJs.tryCall, WhenJs.lift. simpl.
    now rewrite <- !app_assoc.
  - simpl. now rewrite length_app.
Qed.

(** X3.  Once [g = lift(func, ...boundArgs)] has been called with an argument
    that rejects, every later invocation of [g] rejects, whatever its own
    arguments are, and does not call [func]. *)
Theorem lift_rejection_sticks `{Env} (func : value) (boundArgs : list value)
  (this : value) (calls : list (list value)) (t : nat) (r : value)
  (this' : value) (callArgs : list value) (lg : log) :
  In (VFuture (Rejected t r)) (List.concat calls) ->
  exists t0 r0,
    In (VFuture (Rejected t0 r0)) (func :: boundArgs ++ List.concat calls ++ callArgs) /\
    fst (FunctionJs.invoke (invoke_all (FunctionJs.lift func boundArgs) this calls)
           this' callArgs) lg =
    (Normal (Rejected (S (S t0)) r0), lg).
Proof.
  intros Hin. unfold FunctionJs.lift. rewrite invoke_all_state.
  set (state := repeat func (length calls) ++ boundArgs ++ List.concat calls).
  assert (Hrun : fst (FunctionJs.invoke (FunctionJs.mkLifted func state) this' callArgs)
                 = WhenJs._apply func this' (state ++ callArgs)) by reflexivity.
  rewrite Hrun.
  assert (Hin' : In (VFuture (Rejected t r)) (state ++ callArgs)).
  { unfold state. rewrite !in_app_iff. left. right. now right. }
  destruct (all_rejects _ _ _ Hin') as (t0 & r0 & Hall & Hin0 & _).
  exists t0, r0. split; [|now apply _apply_rejected].
  unfold state in Hin0. rewrite !in_app_iff in Hin0.
  simpl. rewrite !in_app_iff.
  destruct Hin0 as [[Hrep|[Hb|Hc]]|Hca]; auto.
  apply repeat_spec in Hrep. now left.
Qed.

Lemma lift_rejection_sticks_witness :
  exists t0 r0,
    In (VFuture (Rejected t0 r0))
       (VFun 0 :: [] ++ List.concat [[VFuture (Rejected 2 (VStr "no"))]] ++ [VNum 1]) /\
    fst (@FunctionJs.invoke quiet
           (@invoke_all quiet (FunctionJs.lift (VFun 0) []) VNull
              [[VFuture (Rejected 2 (VStr "no"))]])
           VNull [VNum 1]) [] =
    (Normal (Rejected (S (S t0)) r0), []).
Proof.
  apply (@lift_rejection_sticks quiet (VFun 0) [] VNull
           [[VFuture (Rejected 2 (VStr "no"))]] 2 (VStr "no") VNull [VNum 1] []).
  simpl. now left.
Defined.

(** ** Calling through [_apply] *)

Lemma all_not_fulfilled (args : list value) :
  Promise.fulfilled_values (List.map Promise.resolve args) = None ->
  forall t v, Promise.all args <> Fulfilled t v.
Proof.
  intros Hnone t v E.
  destruct (all_fulfils_with_array _ _ _ E) as (vs & _ & Hvs).
  unfold awaits in Hvs. congruence.
Qed.

Lemma pending_not_fulfilled (os : list outcome) :
  In Pending os -> Promise.fulfilled_values os = None.
Proof.
  induction os as [|o os IH]; intros Hin; [contradiction|].
  destruct Hin as [->|Hin]; [reflexivity|].
  simpl. destruct o; try reflexivity. now rewrite (IH Hin).
Qed.

(** Without a rejection and with an element that never settles, [all] never
    settles. *)
Lemma all_pending (args : list value) :
  (forall t r, ~ In (VFuture (Rejected t r)) args) ->
  In (VFuture Pending) args ->
  Promise.all args = Pending.
Proof.
  intros Hnone Hpending. unfold Promise.all.
  pose proof (first_rejection_spec (List.map Promise.resolve args)) as Hspec.
  destruct (Promise.first_rejection (List.map Promise.resolve args)) as [[t0 r0]|].
  - destruct Hspec as [Hin _]. apply in_resolved_rejected in Hin.
    now destruct (Hnone t0 r0).
  - rewrite pending_not_fulfilled; [reflexivity|].
    apply in_map_iff. exists (VFuture Pending). now split.
Qed.

Section CallLemmas.
Context `{Env}.

Lemma _apply_not_awaited (func thisArg : value) (args : list value) (lg : log) :
  Promise.fulfilled_values (List.map Promise.resolve args) = None ->
  snd (WhenJs._apply func thisArg args lg) = lg.
Proof.
  intros Hnone. unfold WhenJs._apply.
  pose proof (all_not_fulfilled args Hnone) as Hall.
  destruct (Promise.all args) as [|t v|t r]; try reflexivity.
  now destruct (Hall t v).
Qed.

End CallLemmas.

(** X4.  [apply(func, args, ...)] with an array [args] spreads it: once its
    elements have been awaited, [func] is called once, with the awaited
    values as its arguments and the caller's [this]; whatever is passed to
    [apply] after the array is ignored. *)
Theorem apply_spreads_array `{Env} (f : fid) (this : value) (args vs extra : list value)
  (lg : log) :
  awaits args vs ->
  FunctionJs.apply this (VFun f :: VArr args :: extra) lg =
  (Normal (Promise.conclude (S (Promise.latest (List.map Promise.resolve args)))
                            (fenv f this vs)),
   lg ++ [mkCall f this vs]).
Proof.
  intros Hvs. unfold FunctionJs.apply, WhenJs.tryCall. simpl.
  now apply _apply_awaited.
Qed.

Lemma apply_spreads_array_witness :
  @FunctionJs.apply sample VNull [VFun 1; VArr [VFuture (Fulfilled 3 (VNum 4))]; VNum 9] [] =
  (Normal (Fulfilled 5 (VNum 8)), [mkCall 1 VNull [VNum 4]]).
Proof.
  apply (@apply_spreads_array sample 1 VNull [VFuture (Fulfilled 3 (VNum 4))] [VNum 4]
           [VNum 9] []).
  reflexivity.
Defined.

(** X5.  [lift(f)] of when.js and [tryCall] call [f] exactly when all the
    arguments await successfully: then once, with the awaited values in
    argument order and the caller's [this], the result settling as the call
    ends; otherwise not at all. *)
Theorem lift_calls_once_when_awaited `{Env} (f : fid) (this : value) (args : list value)
  (lg : log) :
  (forall vs,
      awaits args vs ->
      let called :=
        (Normal (Promise.conclude (S (Promise.latest (List.map Promise.resolve args)))
                                  (fenv f this vs)),
         lg ++ [mkCall f this vs]) in
      WhenJs.lift (VFun f) this args lg = called /\
      WhenJs.tryCall this (VFun f :: args) lg = called) /\
  (Promise.fulfilled_values (List.map Promise.resolve args) = None ->
   snd (WhenJs.lift (VFun f) this args lg) = lg /\
   snd (WhenJs.tryCall this (VFun f :: args) lg) = lg).
Proof.
  split.
  - intros vs Hvs. cbv zeta. split; now apply _apply_awaited.
  - intros Hnone. split; now apply _apply_not_awaited.
Qed.

Lemma lift_calls_once_when_awaited_witness :
  @WhenJs.lift sample (VFun 0) VNull [VFuture (Fulfilled 6 (VNum 1))] [] =
  (Normal (Fulfilled 8 (VNum 2)), [mkCall 0 VNull [VNum 1]]).
Proof.
  destruct (@lift_calls_once_when_awaited sample 0 VNull [VFuture (Fulfilled 6 (VNum 1))] [])
    as [Hcalled _].
  destruct (Hcalled [VNum 1] eq_refl) as [Hlift _]. exact Hlift.
Defined.

(** X6.  When no argument rejects and one never settles, the future returned
    by [lift(f)], by [tryCall] and by [apply] never settles, and the function
    is not called. *)
Theorem lift_waits_for_pending_argument `{Env} (func this : value) (args : list value)
  (lg : log) :
  (forall t r, ~ In (VFuture (Rejected t r)) args) ->
  In (VFuture Pending) args ->
  WhenJs.lift func this args lg = (Normal Pending, lg) /\
  WhenJs.tryCall this (func :: args) lg = (Normal Pending, lg) /\
  FunctionJs.apply this [func; VArr args] lg = (Normal Pending, lg).
Proof.
  intros Hnone Hpending.
  assert (Hrun : WhenJs._apply func this args lg = (Normal Pending, lg)).
  { unfold WhenJs._apply. now rewrite (all_pending args Hnone Hpending). }
  repeat split; exact Hrun.
Qed.

Lemma lift_waits_for_pending_argument_witness :
  @WhenJs.lift quiet (VFun 0) VNull [VNum 1; VFuture Pending] [] = (Normal Pending, []).
Proof.
  destruct (@lift_waits_for_pending_argument quiet (VFun 0) VNull
              [VNum 1; VFuture Pending] []) as [Hlift _].
  - intros t r [E|[E|[]]]; discriminate.
  - right. now left.
  - exact Hlift.
Defined.



(** ** The calls made by [compose] *)

Section ComposeCalls.
Context `{Env}.

Lemma pipe_calls (thisArg : value) (stages : list fid) (p : piped) (lg : log) :
  exists calls rest,
    snd (pipe thisArg stages p lg) = lg ++ calls /\
    List.map callee calls ++ rest = stages /\
    Forall (fun c => this_arg c = thisArg /\ length (call_args c) = 1) calls.
Proof.
  revert p lg. induction stages as [|s stages IH]; intros p lg.
  - exists [], []. simpl. rewrite app_nil_r. destruct p; auto.
  - destruct p as [a| |].
    + simpl.
      destruct (IH (awaited (fenv s thisArg [a])) (lg ++ [mkCall s thisArg [a]]))
        as (calls & rest & Hlog & Hcallees & Hthis).
      exists (mkCall s thisArg [a] :: calls), rest.
      rewrite Hlog, <- app_assoc. simpl. rewrite Hcallees.
      repeat split; auto.
    + exists [], (s :: stages). simpl. rewrite app_nil_r. auto.
    + exists [], (s :: stages). simpl. rewrite app_nil_r. auto.
Qed.

End ComposeCalls.

(** X8.  The calls that [compose(f, ...funcs)] makes are calls of [f] and of
    the first so many of [funcs], each once and in this order; each is made
    with the [this] of the caller of the composed function, and every stage
    after [f] receives exactly one argument. *)
Theorem compose_calls_are_a_prefix `{Env} (f : fid) (fs : list fid) (thisArg : value)
  (args : list value) (lg : log) :
  exists calls rest,
    snd (FunctionJs.compose (VFun f) (List.map VFun fs) thisArg args lg) = lg ++ calls /\
    List.map callee calls ++ rest = f :: fs /\
    Forall (fun c => this_arg c = thisArg) calls /\
    Forall (fun c => length (call_args c) = 1) (tl calls).
Proof.
  destruct (compose_runs_pipeline f fs thisArg args lg) as (o & Ho & _).
  rewrite Ho. simpl. unfold pipeline_spec.
  destruct (Promise.all args) as [|t v|t r] eqn:Eall.
  - exists [], (f :: fs). simpl. rewrite app_nil_r. auto.
  - destruct (all_fulfils_with_array _ _ _ Eall) as (vs & -> & _).
    destruct (pipe_calls thisArg fs (awaited (fenv f thisArg vs))
                (lg ++ [mkCall f thisArg vs])) as (calls & rest & Hlog & Hcallees & Hall).
    exists (mkCall f thisArg vs :: calls), rest.
    rewrite Hlog, <- app_assoc. simpl. rewrite Hcallees.
    repeat split; auto.
    + constructor; [reflexivity|]. eapply Forall_impl; [|exact Hall]. now intros c [Hc _].
    + eapply Forall_impl; [|exact Hall]. now intros c [_ Hc].
  - exists [], (f :: fs). simpl. rewrite app_nil_r. auto.
Qed.

(** X9.  [compose(f)] with no further function is [tryCall(f, ...args)]: the
    same calls, and the same settlement, one turn at the earliest. *)
Theorem compose_of_one_function `{Env} (f thisArg : value) (args : list value) (lg : log) :
  exists o lg',
    WhenJs.tryCall thisArg (f :: args) lg = (Normal o, lg') /\
    FunctionJs.compose f [] thisArg args lg = (Normal (Promise.delay 1 o), lg').
Proof.
  destruct (_apply_normal f thisArg args lg) as (o & lg' & Hrun).
  exists o, lg'. split; [exact Hrun|].
  unfold FunctionJs.compose, WhenJs.tryCall. simpl. unfold bind at 1.
  rewrite Hrun. reflexivity.
Qed.

(** ** Repeated [defer] *)

Lemma defer_times_state (k : nat) (s : WhenJs.store) :
  defer_times k s =
  WhenJs.mkStore (WhenJs.next_promise s + k)
    (WhenJs.objects s ++ List.map pair_for (seq (WhenJs.next_promise s) k)).
Proof.
  revert s. induction k as [|k IH]; intros s; cbn [defer_times].
  - simpl. rewrite Nat.add_0_r, app_nil_r. now destruct s.
  - rewrite IH, defer_computes. simpl. rewrite <- app_assoc. simpl.
    f_equal. lia.
Qed.

(** X10.  [k] calls of [defer], one after the other, leave what was in the
    store as it was and add [k] deferreds, in the order of the calls, each a
    complete pair for a promise of its own: no two of them share a promise,
    and none has the promise of an earlier call. *)
Theorem defer_repeated (k : nat) (s : WhenJs.store) :
  let made := List.map pair_for (seq (WhenJs.next_promise s) k) in
  defer_times k s = WhenJs.mkStore (WhenJs.next_promise s + k) (WhenJs.objects s ++ made) /\
  NoDup (List.map WhenJs.promise made) /\
  Forall (fun d => exists p, WhenJs.next_promise s <= p /\ d = pair_for p) made.
Proof.
  cbv zeta. split; [apply defer_times_state|]. split.
  - rewrite map_map. simpl.
    generalize (seq_NoDup k (WhenJs.next_promise s)).
    induction (seq (WhenJs.next_promise s) k) as [|p l IH]; intros Hnd; simpl;
      [constructor|].
    inversion Hnd as [|p' l' Hnotin Hnd']; subst. constructor; [|now apply IH].
    intros Hin. apply in_map_iff in Hin. destruct Hin as (q & E & Hq).
    inversion E. now subst.
  - apply Forall_forall. intros d Hd. apply in_map_iff in Hd.
    destruct Hd as (p & <- & Hp). apply in_seq in Hp. exists p. split; [lia|reflexivity].
Qed.

(** ** The outer input of the combinators *)





